(** * starfx-explorations: the [withResolvers] broadcaster and the Result helpers

    A shallow embedding of
    - [withResolvers] and [notify] (the single-settlement, multi-waiter
      deferred value), and
    - the Result / ResultLike helpers of [src/utils/basic.ts],
    over a small model of the JavaScript values these functions inspect. *)

From Stdlib Require Import Ascii.
From stdpp Require Import gmap strings list fin_maps pretty sorting.

Open Scope string_scope.
Open Scope list_scope.
#[local] Set Warnings "-register-all".

(** * JavaScript values *)

(** The values the source handles.  Objects are plain data objects: a finite
    map from property names to values (their own enumerable properties).
    A number is held as the decimal [mantissa * 10 ^ exponent] it is written
    as; no function of the source computes with numbers.
    [VError arg] is the instance built by [new Error(arg)]; its message is
    [arg] when [arg] is a string.  [VCata result] is the generator function
    [cataFunction] that [toFxResult] creates, closed over [result]. *)
Inductive Value : Type :=
| VUndefined
| VNull
| VBool (b : bool)
| VNum (mantissa exponent : Z)
| VStr (s : string)
| VObj (props : gmap string Value)
| VArr (elems : list Value)
| VError (arg : Value)
| VCata (result : Value).

(** What a throwing expression raises. *)
Inductive Exn : Type :=
| TypeError
| SyntaxError.

(** The completion of an evaluation: a value, or an exception in flight. *)
Inductive Completion (A : Type) : Type :=
| Normal (a : A)
| Throw (e : Exn).
Arguments Normal {A} a.
Arguments Throw {A} e.

#[global] Instance Completion_ret : MRet Completion := fun A a => Normal a.
#[global] Instance Completion_bind : MBind Completion := fun A B f m =>
  match m with
  | Normal a => f a
  | Throw e => Throw e
  end.

(** [typeof v] *)
Definition typeof (v : Value) : string :=
  match v with
  | VUndefined => "undefined"
  | VNull => "object"
  | VBool _ => "boolean"
  | VNum _ _ => "number"
  | VStr _ => "string"
  | VObj _ | VArr _ | VError _ => "object"
  | VCata _ => "function"
  end.

(** ToBoolean, the test of [if (v)] and [!v]. *)
Definition truthy (v : Value) : bool :=
  match v with
  | VUndefined | VNull => false
  | VBool b => b
  | VNum mantissa _ => negb (mantissa =? 0)%Z
  | VStr s => negb (String.eqb s "")
  | VObj _ | VArr _ | VError _ | VCata _ => true
  end.

(** [v === true], [v === false] *)
Definition strict_eq_bool (v : Value) (b : bool) : bool :=
  match v with
  | VBool b' => Bool.eqb b' b
  | _ => false
  end.

(** [v === null] *)
Definition is_null (v : Value) : bool :=
  match v with VNull => true | _ => false end.

(** [typeof v === "object"], and every other value an object reference can
    be: functions are objects too. *)
Definition is_object (v : Value) : bool :=
  match v with
  | VObj _ | VArr _ | VError _ | VCata _ => true
  | _ => false
  end.

(** The own enumerable properties of a value: those of a plain object, and
    the elements of an array and the characters of a string under their
    indices.  What else a lookup can find (a length, the message of an
    error, the methods of the built-in prototypes) goes by other names than
    the ones the source asks for, which are [ok], [value], [error] and
    [cata]. *)
Definition indexed (vs : list Value) : gmap string Value :=
  list_to_map (imap (λ i v, (pretty i, v)) vs).

Definition own_props (v : Value) : gmap string Value :=
  match v with
  | VObj props => props
  | VArr elems => indexed elems
  | VStr s => indexed ((λ c, VStr (String c "")) <$> String.list_ascii_of_string s)
  | _ => ∅
  end.

(** [v.k]: reading a property of [undefined] or [null] is a TypeError; a
    property that is not there reads as [undefined]. *)
Definition get (v : Value) (k : string) : Completion Value :=
  match v with
  | VUndefined | VNull => Throw TypeError
  | _ => Normal (default VUndefined (own_props v !! k))
  end.

(** [k in v]: a TypeError unless [v] is an object. *)
Definition has_property (k : string) (v : Value) : Completion bool :=
  if is_object v then Normal (bool_decide (is_Some (own_props v !! k)))
  else Throw TypeError.

(** [a && b] and [a || b] on boolean operands: [b] is evaluated, and may
    throw, only when [a] does not decide.  Both associate to the left, and
    [&&] binds tighter, as in the source. *)
Definition js_and (a b : Completion bool) : Completion bool :=
  a ≫= λ x : bool, if x then b else mret false.
Definition js_or (a b : Completion bool) : Completion bool :=
  a ≫= λ x : bool, if x then mret true else b.

Declare Scope js_scope.
Delimit Scope js_scope with js.
Infix "&&" := js_and (at level 40, left associativity) : js_scope.
Infix "||" := js_or (at level 50, left associativity) : js_scope.

(** [Ok] and [Err] are the constructors of [Result<T>] that both files
    import: [Ok(value)] is [{ ok: true, value }] and [Err(error)] is
    [{ ok: false, error }], the two shapes the type declares. *)
Definition Ok (value : Value) : Value :=
  VObj (<["value" := value]> {["ok" := VBool true]}).
Definition Err (error : Value) : Value :=
  VObj (<["error" := error]> {["ok" := VBool false]}).

(** [new Error(arg)] *)
Definition new_Error (arg : Value) : Value := VError arg.

(** * The broadcaster of [withResolvers] *)

(** A resolver is the object [{ resolve, reject }] that an invocation of
    [operation] builds from the continuation pair it is given.  The set of
    subscribers holds references to these objects, so a resolver is modelled
    by its identity: the number of the invocation that built it. *)
Definition Resolver : Type := nat.

(** A call of one of the two continuations of a resolver. *)
Inductive Call : Type :=
| CallResolve (value : Value)
| CallReject (error : Value).

(** Where the generator body of an invocation of [operation] stands:
    parked at [yield* suspend()] inside the [try], or finished. *)
Inductive Frame : Type :=
| Suspended
| Returned.

(** The function the variable [settle] currently holds: the one it is
    initialised with, or the [() => {}] it is overwritten with. *)
Inductive SettleFn : Type :=
| SettleFirst
| SettleNoop.

(** The variables closed over by [operation], [resolve] and [reject], the
    generator frames of the invocations of [operation] (indexed by resolver),
    and the calls made so far to the continuations, oldest first. *)
Record State : Type := mkState {
  subscribers : list Resolver;
  settlement : Value;
  settle : SettleFn;
  frames : list Frame;
  calls : list (Resolver * Call);
}.

Definition with_subscribers (s : list Resolver) (st : State) : State :=
  mkState s (settlement st) (settle st) (frames st) (calls st).
Definition with_settlement (r : Value) (f : SettleFn) (st : State) : State :=
  mkState (subscribers st) r f (frames st) (calls st).
Definition with_frames (fs : list Frame) (st : State) : State :=
  mkState (subscribers st) (settlement st) (settle st) fs (calls st).
Definition with_calls (cs : list (Resolver * Call)) (st : State) : State :=
  mkState (subscribers st) (settlement st) (settle st) (frames st) cs.

(** [withResolvers()]: an empty set, no settlement, no invocation yet. *)
Definition withResolvers : State :=
  mkState [] VUndefined SettleFirst [] [].

(** [Set.prototype.add] and [Set.prototype.delete] on a set kept in
    insertion order. *)
Definition set_add (x : Resolver) (s : list Resolver) : list Resolver :=
  if decide (x ∈ s) then s else s ++ [x].
Definition set_delete (x : Resolver) (s : list Resolver) : list Resolver :=
  filter (λ y, y ≠ x) s.

(** [resolver.resolve(v)] and [resolver.reject(e)].  The continuations are
    the scheduler's: the broadcaster's part is the call, which is recorded.
    A continuation returns to its caller; what the resumed invocation goes
    on to do to the broadcaster comes as later events. *)
Definition call_resolver (resolver : Resolver) (c : Call) (st : State) : State :=
  with_calls (calls st ++ [(resolver, c)]) st.

Definition notify (result : Value) (resolver : Resolver) (st : State)
  : Completion State :=
  ok ← get result "ok";
  if truthy ok then
    value ← get result "value";
    mret (call_resolver resolver (CallResolve value) st)
  else
    has_property "error" result ≫= λ has_error : bool,
    if has_error then
      error ← get result "error";
      mret (call_resolver resolver (CallReject error) st)
    else
      mret (call_resolver resolver
              (CallReject (new_Error (VStr "unknown error"))) st).

(** The [for (const subscriber of subscribers)] loop.  [pending] is what the
    set iterator has yet to reach; it yields an entry only if the entry is
    still in the set when reached. *)
Fixpoint settle_loop (pending : list Resolver) (st : State) : Completion State :=
  match pending with
  | [] => mret st
  | subscriber :: rest =>
      if decide (subscriber ∈ subscribers st) then
        st' ← notify (settlement st) subscriber
                (with_subscribers (set_delete subscriber (subscribers st)) st);
        settle_loop rest st'
      else settle_loop rest st
  end.

(** The function [settle] is initialised with. *)
Definition settle_first (result : Value) (st : State) : Completion State :=
  let st1 := if truthy (settlement st) then st
             else with_settlement result SettleNoop st in
  settle_loop (subscribers st1) st1.

(** [settle(result)]: a call of whatever the variable holds. *)
Definition call_settle (result : Value) (st : State) : Completion State :=
  match settle st with
  | SettleFirst => settle_first result st
  | SettleNoop => mret st
  end.

Definition resolve (value : Value) (st : State) : Completion State :=
  call_settle (Ok value) st.
Definition reject (error : Value) (st : State) : Completion State :=
  call_settle (Err error) st.

(** An invocation of [operation], up to where its body returns or parks.
    The resolver it builds is new: it gets the next free number. *)
Definition operation (st : State) : Completion State :=
  let resolver := length (frames st) in
  if truthy (settlement st) then
    st' ← notify (settlement st) resolver st;
    mret (with_frames (frames st' ++ [Returned]) st')
  else
    mret (with_frames (frames st ++ [Suspended])
            (with_subscribers (set_add resolver (subscribers st)) st)).

(** The [finally] block: it runs when the parked body of invocation
    [resolver] is unwound, whether the invocation was resumed through its
    continuations or its caller was cancelled.  A body that is not parked
    has nothing left to run. *)
Definition operation_finally (resolver : Resolver) (st : State) : State :=
  match frames st !! resolver with
  | Some Suspended =>
      with_frames (<[resolver := Returned]> (frames st))
        (with_subscribers (set_delete resolver (subscribers st)) st)
  | _ => st
  end.

(** ** Runs of a broadcaster *)

(** What can happen to a broadcaster: a caller runs [operation]; the
    scheduler unwinds the body of an invocation (after it has resumed the
    invocation, or because its caller is cancelled); the producer calls
    [resolve] or [reject]. *)
Inductive Event : Type :=
| Invoke
| Unwind (resolver : Resolver)
| Resolve (value : Value)
| Reject (error : Value).

Definition step (e : Event) (st : State) : Completion State :=
  match e with
  | Invoke => operation st
  | Unwind resolver => mret (operation_finally resolver st)
  | Resolve value => resolve value st
  | Reject error => reject error st
  end.

Fixpoint run (events : list Event) (st : State) : Completion State :=
  match events with
  | [] => mret st
  | e :: rest => st' ← step e st; run rest st'
  end.

(** The states a broadcaster can be in. *)
Definition reachable (st : State) : Prop :=
  ∃ events, run events withResolvers = Normal st.

Definition is_settling (e : Event) : bool :=
  match e with
  | Resolve _ | Reject _ => true
  | _ => false
  end.

(** The result a settling call hands to [settle], and the continuation call
    a waiter receives for it. *)
Definition result_of (e : Event) : Value :=
  match e with
  | Resolve value => Ok value
  | Reject error => Err error
  | _ => VUndefined
  end.
Definition call_of (e : Event) : Call :=
  match e with
  | Reject error => CallReject error
  | Resolve value => CallResolve value
  | _ => CallResolve VUndefined
  end.

(** ** Invariant, and the terminal states of a waiter *)

(** [settled_with result c]: [result] is what a settling call stores, and
    [c] the continuation call it stands for. *)
Definition settled_with (result : Value) (c : Call) : Prop :=
  (∃ value, result = Ok value ∧ c = CallResolve value) ∨
  (∃ error, result = Err error ∧ c = CallReject error).

(** What holds of a broadcaster in every state it can reach. *)
Definition inv (st : State) : Prop :=
  NoDup (calls st).*1 ∧
  (∀ r, r ∈ (calls st).*1 → r < length (frames st)) ∧
  match settle st with
  | SettleFirst =>
      settlement st = VUndefined ∧ calls st = [] ∧
      NoDup (subscribers st) ∧
      ∀ r, r ∈ subscribers st ↔ frames st !! r = Some Suspended
  | SettleNoop =>
      subscribers st = [] ∧
      ∃ c, settled_with (settlement st) c ∧
           (∀ rc, rc ∈ calls st → rc.2 = c) ∧
           ∀ r, frames st !! r = Some Suspended → r ∈ (calls st).*1
  end.

(** Invocation [r] has been resumed: one of its continuations was called. *)
Definition resumed (r : Resolver) (st : State) : Prop :=
  r ∈ (calls st).*1.

(** Invocation [r] has been cancelled: its parked body was unwound and
    neither continuation had been called. *)
Definition cancelled (r : Resolver) (st : State) : Prop :=
  frames st !! r = Some Returned ∧ r ∉ (calls st).*1.

(** Invocation [r] exists and is not in the registry. *)
Definition deregistered (r : Resolver) (st : State) : Prop :=
  r < length (frames st) ∧ r ∉ subscribers st.

(** The variable [settlement] holds what its declaration says:
    [undefined] or a [Result<T>]. *)
Definition settlement_typed (st : State) : Prop :=
  settlement st = VUndefined ∨ ∃ c, settled_with (settlement st) c.

(** * The helpers of [src/utils/basic.ts] *)

(** [try { body } catch (error) { handler }] *)
Definition try_catch {A : Type} (body : Completion A) (handler : Exn → Completion A)
  : Completion A :=
  match body with
  | Normal a => Normal a
  | Throw e => handler e
  end.

Section isJSONString.
(** [JSON.parse] is the runtime's: the function is taken as it comes. *)
Variable JSON_parse : string → Completion Value.

Definition isJSONString (str : string) : Completion bool :=
  try_catch
    (obj ← JSON_parse str;
     mret (String.eqb (typeof obj) "object" && negb (is_null obj)))
    (λ error, mret false).
End isJSONString.

(** [v.k === b] for a boolean literal [b]. *)
Definition field_is (v : Value) (k : string) (b : bool) : Completion bool :=
  x ← get v k; mret (strict_eq_bool x b).

Definition isResultDelphi (arg : Value) : Completion bool :=
  (mret (String.eqb (typeof arg) "object") && mret (negb (is_null arg))
   && has_property "ok" arg && field_is arg "ok" true
   && has_property "value" arg
   || field_is arg "ok" false && has_property "error" arg)%js.

Definition isResultLikeOk (arg : Value) : Completion bool :=
  (isResultDelphi arg && field_is arg "ok" true)%js.

Definition isResultLikeErr (arg : Value) : Completion bool :=
  (isResultDelphi arg && field_is arg "ok" false && has_property "error" arg)%js.

(** [{ ...result, cata: cataFunction }]: the spread copies the own
    enumerable properties. *)
Definition toFxResult (result : Value) : Value :=
  let cataFunction := VCata result in
  VObj (<["cata" := cataFunction]> (own_props result)).

(** [const { cata, ...original } = result; return original;]: the pattern
    throws on [undefined] and [null], and the rest element copies the own
    enumerable properties but [cata]. *)
Definition toResult (result : Value) : Completion Value :=
  match result with
  | VUndefined | VNull => Throw TypeError
  | _ => mret (VObj (delete "cata" (own_props result)))
  end.

Definition ResultLikeToResult (result : Value) : Completion Value :=
  ok ← get result "ok";
  if truthy ok then
    value ← get result "value";
    mret (Ok value)
  else
    has_property "error" result ≫= λ has_error : bool,
    if has_error then
      error ← get result "error";
      mret (Err (new_Error error))
    else
      mret (Err (new_Error (VStr "unknown error"))).

(** The message of an [Error] instance built from a string. *)
Definition error_message (v : Value) : option string :=
  match v with
  | VError (VStr message) => Some message
  | _ => None
  end.

(** [Result<T>], as declared: [{ ok: true, value }] or [{ ok: false, error }]. *)
Definition is_Result (r : Value) : Prop :=
  (∃ value, r = Ok value) ∨ (∃ error, r = Err error).

(** * A reference [JSON.parse]

    The JSON grammar of ECMA-404 on byte strings, to run [isJSONString] on
    concrete texts.  Text outside ASCII is held in UTF-8, and an escaped
    code unit [\uXXXX] is decoded to UTF-8 as well. *)
Module JSON.
#[local] Open Scope char_scope.

Definition quote : ascii := ascii_of_nat 34.

Definition is_ws (c : ascii) : bool :=
  match c with
  | " " | "009" | "010" | "013" => true
  | _ => false
  end.

Fixpoint skip_ws (s : list ascii) : list ascii :=
  match s with
  | c :: rest => if is_ws c then skip_ws rest else s
  | [] => []
  end.

Definition digit (c : ascii) : option Z :=
  let n := Z.of_N (N_of_ascii c) in
  if (48 <=? n)%Z && (n <=? 57)%Z then Some (n - 48)%Z else None.

Definition hex_digit (c : ascii) : option Z :=
  let n := Z.of_N (N_of_ascii c) in
  if (48 <=? n)%Z && (n <=? 57)%Z then Some (n - 48)%Z
  else if (65 <=? n)%Z && (n <=? 70)%Z then Some (n - 55)%Z
  else if (97 <=? n)%Z && (n <=? 102)%Z then Some (n - 87)%Z
  else None.

(** A run of digits: the number read onto [acc], how many digits it had,
    and the rest of the text. *)
Fixpoint digits (acc count : Z) (s : list ascii) : Z * Z * list ascii :=
  match s with
  | c :: rest =>
      match digit c with
      | Some d => digits (10 * acc + d)%Z (count + 1)%Z rest
      | None => (acc, count, s)
      end
  | [] => (acc, count, [])
  end.

Definition parse_int (s : list ascii) : option (Z * list ascii) :=
  match s with
  | "0" :: rest => Some (0%Z, rest)
  | c :: _ =>
      match digit c with
      | Some _ => let '(n, _, rest) := digits 0 0 s in Some (n, rest)
      | None => None
      end
  | [] => None
  end.

Definition parse_frac (n : Z) (s : list ascii) : option (Z * Z * list ascii) :=
  match s with
  | "." :: rest =>
      let '(n', count, rest') := digits n 0 rest in
      if (count =? 0)%Z then None else Some (n', count, rest')
  | _ => Some (n, 0%Z, s)
  end.

Definition parse_exp (s : list ascii) : option (Z * list ascii) :=
  match s with
  | "e" :: rest | "E" :: rest =>
      let '(negative, rest1) :=
        match rest with
        | "-" :: r => (true, r)
        | "+" :: r => (false, r)
        | _ => (false, rest)
        end in
      let '(e, count, rest2) := digits 0 0 rest1 in
      if (count =? 0)%Z then None
      else Some (if negative then (- e)%Z else e, rest2)
  | _ => Some (0%Z, s)
  end.

Definition parse_number (s : list ascii) : option (Value * list ascii) :=
  let '(negative, s1) :=
    match s with
    | "-" :: r => (true, r)
    | _ => (false, s)
    end in
  '(n, s2) ← parse_int s1;
  '(m, count, s3) ← parse_frac n s2;
  '(e, s4) ← parse_exp s3;
  Some (VNum (if negative then - m else m) (e - count), s4).

Definition byte (n : Z) : ascii := ascii_of_N (Z.to_N n).

(** The UTF-8 bytes of a code unit. *)
Definition utf8 (u : Z) : list ascii :=
  if (u <? 128)%Z then [byte u]
  else if (u <? 2048)%Z then
    [byte (192 + u / 64); byte (128 + u mod 64)]
  else
    [byte (224 + u / 4096); byte (128 + (u / 64) mod 64);
     byte (128 + u mod 64)].

Definition hex4 (a b c d : ascii) : option Z :=
  x ← hex_digit a; y ← hex_digit b; z ← hex_digit c; w ← hex_digit d;
  Some (((x * 16 + y) * 16 + z) * 16 + w)%Z.

(** The characters of a string literal after its opening quote, up to the
    closing one; [acc] holds the bytes read so far, last first. *)
Fixpoint parse_chars (s acc : list ascii) : option (string * list ascii) :=
  match s with
  | [] => None
  | c :: rest =>
      if Ascii.eqb c quote then
        Some (String.string_of_list_ascii (rev acc), rest)
      else if Ascii.eqb c "\" then
        match rest with
        | [] => None
        | e :: rest1 =>
            if Ascii.eqb e quote then parse_chars rest1 (e :: acc)
            else
              match e with
              | "\" | "/" => parse_chars rest1 (e :: acc)
              | "b" => parse_chars rest1 ("008" :: acc)
              | "f" => parse_chars rest1 ("012" :: acc)
              | "n" => parse_chars rest1 ("010" :: acc)
              | "r" => parse_chars rest1 ("013" :: acc)
              | "t" => parse_chars rest1 ("009" :: acc)
              | "u" =>
                  match rest1 with
                  | a :: b :: c' :: d :: rest2 =>
                      match hex4 a b c' d with
                      | Some u => parse_chars rest2 (rev (utf8 u) ++ acc)
                      | None => None
                      end
                  | _ => None
                  end
              | _ => None
              end
        end
      else if (N_of_ascii c <? 32)%N then None
      else parse_chars rest (c :: acc)
  end.

(** A value, the elements of an array after the first bracket, and the
    members of an object after the first brace.  Every call uses one unit
    of [fuel]; twice the length of the text is enough. *)
Fixpoint parse_value (fuel : nat) (s : list ascii) : option (Value * list ascii) :=
  match fuel with
  | 0 => None
  | S fuel =>
      match skip_ws s with
      | "{" :: rest =>
          match skip_ws rest with
          | "}" :: rest' => Some (VObj ∅, rest')
          | rest' => parse_members fuel rest' ∅
          end
      | "[" :: rest =>
          match skip_ws rest with
          | "]" :: rest' => Some (VArr [], rest')
          | rest' => parse_elements fuel rest' []
          end
      | "t" :: "r" :: "u" :: "e" :: rest => Some (VBool true, rest)
      | "f" :: "a" :: "l" :: "s" :: "e" :: rest => Some (VBool false, rest)
      | "n" :: "u" :: "l" :: "l" :: rest => Some (VNull, rest)
      | c :: rest =>
          if Ascii.eqb c quote then
            '(str, rest') ← parse_chars rest [];
            Some (VStr str, rest')
          else parse_number (c :: rest)
      | [] => None
      end
  end
with parse_elements (fuel : nat) (s : list ascii) (acc : list Value)
  : option (Value * list ascii) :=
  match fuel with
  | 0 => None
  | S fuel =>
      '(v, rest) ← parse_value fuel s;
      match skip_ws rest with
      | "," :: rest' => parse_elements fuel rest' (v :: acc)
      | "]" :: rest' => Some (VArr (rev (v :: acc)), rest')
      | _ => None
      end
  end
with parse_members (fuel : nat) (s : list ascii) (acc : gmap string Value)
  : option (Value * list ascii) :=
  match fuel with
  | 0 => None
  | S fuel =>
      match skip_ws s with
      | c :: rest =>
          if Ascii.eqb c quote then
            '(key, rest1) ← parse_chars rest [];
            match skip_ws rest1 with
            | ":" :: rest2 =>
                '(v, rest3) ← parse_value fuel rest2;
                match skip_ws rest3 with
                | "," :: rest4 => parse_members fuel rest4 (<[key := v]> acc)
                | "}" :: rest4 => Some (VObj (<[key := v]> acc), rest4)
                | _ => None
                end
            | _ => None
            end
          else None
      | [] => None
      end
  end.

(** [JSON.parse(text)]: one value between white space, or a SyntaxError. *)
Definition parse (text : string) : Completion Value :=
  let s := String.list_ascii_of_string text in
  match parse_value (2 * length s + 2) s with
  | Some (v, rest) =>
      match skip_ws rest with
      | [] => Normal v
      | _ => Throw SyntaxError
      end
  | None => Throw SyntaxError
  end.
End JSON.

(** The text of a JSON string literal: [s] between double quotes. *)
Definition quoted (s : string) : string :=
  String JSON.quote (s +:+ String JSON.quote "").

(** * The other helpers of [src/utils/basic.ts] *)

(** [v === undefined] *)
Definition is_undefined (v : Value) : bool :=
  match v with VUndefined => true | _ => false end.

(** [result.ok === true] and [result.ok === false] *)
Definition isOk (result : Value) : Completion bool :=
  field_is result "ok" true.
Definition isErr (result : Value) : Completion bool :=
  field_is result "ok" false.

(** [p.ok !== undefined] *)
Definition isResult (p : Value) : Completion bool :=
  ok ← get p "ok"; mret (negb (is_undefined ok)).

(** The generator function [cataFunction] of [toFxResult], closed over
    [result].  [patterns.Ok(result)] and [patterns.Err(result)] are the
    caller's operations, of some type [U]; [return yield* op] hands the
    whole of the operation over to [op], so that running [cata] is running
    the operation that the chosen pattern returns. *)
Definition cataFunction {U : Type} (result : Value)
    (patterns_Ok patterns_Err : Value → U) : Completion U :=
  isOk result ≫= λ ok : bool,
  if ok then mret (patterns_Ok result) else mret (patterns_Err result).

(** [enhanced.cata(patterns)]: a TypeError if the field is not a function. *)
Definition call_cata {U : Type} (enhanced : Value)
    (patterns_Ok patterns_Err : Value → U) : Completion U :=
  cata ← get enhanced "cata";
  match cata with
  | VCata result => cataFunction result patterns_Ok patterns_Err
  | _ => Throw TypeError
  end.

Section WithJsonValue.
Variable JSON_parse : string → Completion Value.
(** [JSON.parse] first converts its argument to a string.  The two callers
    below pass a field as it comes, so the conversion of a value that is
    not a string, which is the runtime's and may throw, is a parameter. *)
Variable ToString : Value → Completion string.

Definition to_text (v : Value) : Completion string :=
  match v with
  | VStr s => mret s
  | _ => ToString v
  end.

(** [isJSONString(v)] for a [v] of any type: the conversion happens inside
    [JSON.parse], hence inside the [try]. *)
Definition isJSONString_of (v : Value) : Completion bool :=
  try_catch
    (str ← to_text v;
     obj ← JSON_parse str;
     mret (String.eqb (typeof obj) "object" && negb (is_null obj)))
    (λ error, mret false).

Definition isResultLikeOkWithJsonValue (arg : Value) : Completion bool :=
  (isResultLikeOk arg && (value ← get arg "value"; isJSONString_of value))%js.

Definition isResultLikeErrWithJsonValue (arg : Value) : Completion bool :=
  (isResultLikeErr arg && (error ← get arg "error"; isJSONString_of error))%js.
End WithJsonValue.

(** The two shapes [isResultDelphi] accepts, read off the value: a value of
    type "object" with [ok] true and a [value] field, or an object with [ok]
    false and an [error] field. *)
Definition delphi_ok (v : Value) : Prop :=
  typeof v = "object" ∧ own_props v !! "ok" = Some (VBool true) ∧
  is_Some (own_props v !! "value").
Definition delphi_err (v : Value) : Prop :=
  is_object v = true ∧ own_props v !! "ok" = Some (VBool false) ∧
  is_Some (own_props v !! "error").

(** An index, written in decimal, starts with a digit. *)
Definition head_is_digit (s : string) : Prop :=
  match s with
  | "" => True
  | String c _ => ∃ d, (d < 10)%N ∧ c = pretty_N_char d
  end.


(** * Proofs *)

(** ** The broadcaster: steps and invariant *)

Lemma settled_with_result_of (e : Event) :
  is_settling e = true → settled_with (result_of e) (call_of e).
Proof.
  destruct e; simpl; try discriminate; intros _; [left | right]; eauto.
Qed.

Lemma settled_with_truthy result c : settled_with result c → truthy result = true.
Proof. by intros [(? & -> & _) | (? & -> & _)]. Qed.

Lemma notify_Ok value resolver st :
  notify (Ok value) resolver st
  = Normal (call_resolver resolver (CallResolve value) st).
Proof. reflexivity. Qed.

Lemma notify_Err error resolver st :
  notify (Err error) resolver st
  = Normal (call_resolver resolver (CallReject error) st).
Proof. reflexivity. Qed.

Lemma notify_settled result c resolver st :
  settled_with result c →
  notify result resolver st = Normal (call_resolver resolver c st).
Proof.
  intros [(v & -> & ->) | (e & -> & ->)];
    [apply notify_Ok | apply notify_Err].
Qed.

Lemma set_delete_fresh x s : x ∉ s → set_delete x s = s.
Proof.
  intros Hx. unfold set_delete. induction s as [| y s IH]; [done |].
  rewrite filter_cons. apply not_elem_of_cons in Hx as [Hne Hx].
  rewrite decide_True by done. by rewrite IH.
Qed.

Lemma elem_of_set_delete x y s : y ∈ set_delete x s ↔ y ∈ s ∧ y ≠ x.
Proof. unfold set_delete. rewrite list_elem_of_filter. tauto. Qed.

Lemma NoDup_set_delete x s : NoDup s → NoDup (set_delete x s).
Proof. apply NoDup_filter. Qed.


(** The loop notifies each pending subscriber, in order, and empties the
    set of them. *)
Lemma settle_loop_spec c pending st :
  settled_with (settlement st) c →
  NoDup pending →
  (∀ r, r ∈ pending → r ∈ subscribers st) →
  settle_loop pending st
  = Normal (mkState (filter (λ r, r ∉ pending) (subscribers st))
              (settlement st) (settle st) (frames st)
              (calls st ++ ((λ r, (r, c)) <$> pending))).
Proof.
  intros Hc. revert st Hc.
  induction pending as [| r rest IH]; intros st Hc Hnd Hsub; simpl.
  - destruct st as [subs ? ? ? cs]; simpl. unfold mret, Completion_ret.
    f_equal. f_equal; [| by rewrite app_nil_r].
    clear. induction subs as [| x subs IHs]; [done |].
    rewrite filter_cons_True by (intros H; by apply elem_of_nil in H). by rewrite <- IHs.
  - apply NoDup_cons in Hnd as [Hr Hnd].
    rewrite decide_True by (apply Hsub; left).
    rewrite (notify_settled _ c) by done. simpl.
    rewrite IH; simpl; [| done | done |].
    + f_equal. f_equal.
      * unfold set_delete. rewrite list_filter_filter.
        apply list_filter_iff. intros x. rewrite not_elem_of_cons. tauto.
      * by rewrite <- app_assoc.
    + intros x Hx. apply elem_of_set_delete. split.
      * apply Hsub. by right.
      * intros ->. done.
Qed.

Lemma filter_not_elem_self (s : list Resolver) : filter (λ r, r ∉ s) s = [].
Proof.
  apply elem_of_nil_inv. intros x. rewrite list_elem_of_filter. tauto.
Qed.

(** The first settling call on an unsettled broadcaster. *)
Lemma settle_first_unsettled c result st :
  settled_with result c →
  settlement st = VUndefined →
  NoDup (subscribers st) →
  settle_first result st
  = Normal (mkState [] result SettleNoop (frames st)
              (calls st ++ ((λ r, (r, c)) <$> subscribers st))).
Proof.
  intros Hc Hs Hnd. unfold settle_first. rewrite Hs. simpl.
  rewrite (settle_loop_spec c); simpl; [| done | done | done].
  by rewrite filter_not_elem_self.
Qed.

Lemma operation_unsettled st :
  settlement st = VUndefined →
  operation st
  = Normal (with_frames (frames st ++ [Suspended])
              (with_subscribers
                 (set_add (length (frames st)) (subscribers st)) st)).
Proof. intros Hs. unfold operation. by rewrite Hs. Qed.

Lemma operation_settled c st :
  settled_with (settlement st) c →
  operation st
  = Normal (mkState (subscribers st) (settlement st) (settle st)
              (frames st ++ [Returned])
              (calls st ++ [(length (frames st), c)])).
Proof.
  intros Hc. unfold operation.
  rewrite (settled_with_truthy _ c), (notify_settled _ c) by done.
  reflexivity.
Qed.

Lemma inv_withResolvers : inv withResolvers.
Proof.
  repeat split; simpl; try apply NoDup_nil_2.
  - intros r Hr. by apply elem_of_nil in Hr.
  - intros Hr. by apply elem_of_nil in Hr.
  - intros Hr. by rewrite lookup_nil in Hr.
Qed.

Lemma inv_operation st st' : inv st → operation st = Normal st' → inv st'.
Proof.
  intros (Hnd & Hbound & Hcase) Hop.
  destruct (settle st) eqn:Hsettle.
  - destruct Hcase as (Hs & Hcalls & Hsubs & Hiff).
    rewrite operation_unsettled in Hop by done.
    injection Hop as <-. unfold inv; simpl. rewrite Hsettle, Hcalls. simpl.
    assert (Hfresh : length (frames st) ∉ subscribers st).
    { intros Hin. apply Hiff, lookup_lt_Some in Hin. lia. }
    unfold set_add. rewrite decide_False by done.
    split; [apply NoDup_nil_2 |].
    split; [intros r Hr; by apply elem_of_nil in Hr |].
    split; [done |]. split; [done |]. split.
    { apply NoDup_app. split; [done |]. split; [| apply NoDup_singleton].
      intros x Hx ->%list_elem_of_singleton. done. }
    intros r. rewrite elem_of_app, list_elem_of_singleton, Hiff.
    split.
    + intros [Hr | ->].
      * by apply lookup_app_l_Some.
      * by rewrite lookup_app_r, Nat.sub_diag by lia.
    + intros Hr. destruct (decide (r < length (frames st))) as [Hlt | Hge].
      * left. by rewrite lookup_app_l in Hr.
      * right. apply lookup_lt_Some in Hr.
        rewrite length_app in Hr. simpl in Hr. lia.
  - destruct Hcase as (Hsubs & c & Hc & Hsame & Hsusp).
    rewrite (operation_settled c) in Hop by done.
    injection Hop as <-. unfold inv; simpl. rewrite Hsettle.
    rewrite fmap_app, length_app. simpl. split; [| split; [| split]].
    + apply NoDup_app. split; [done |]. split; [| apply NoDup_singleton].
      intros x Hx ->%list_elem_of_singleton. apply Hbound in Hx. lia.
    + intros r [Hr | ->%list_elem_of_singleton]%elem_of_app; [| lia].
      apply Hbound in Hr. lia.
    + done.
    + exists c. split; [done |]. split.
      * intros rc [Hrc | ->%list_elem_of_singleton]%elem_of_app; [| done].
        by apply Hsame.
      * intros r Hr. apply elem_of_app.
        destruct (decide (r < length (frames st))) as [Hlt | Hge].
        -- left. apply Hsusp. by rewrite lookup_app_l in Hr.
        -- rewrite lookup_app_r in Hr by lia.
           destruct (r - length (frames st)) as [| n]; [done |].
           simpl in Hr. by rewrite lookup_nil in Hr.
Qed.

Lemma inv_operation_finally resolver st :
  inv st → inv (operation_finally resolver st).
Proof.
  intros (Hnd & Hbound & Hcase). unfold operation_finally.
  destruct (frames st !! resolver) as [[|] |] eqn:Hframe;
    [| by repeat split | by repeat split].
  unfold inv; simpl. rewrite length_insert.
  split; [done |]. split; [done |].
  destruct (settle st).
  - destruct Hcase as (Hs & Hcalls & Hsubs & Hiff).
    split; [done |]. split; [done |].
    split; [by apply NoDup_set_delete |].
    intros r. rewrite elem_of_set_delete, Hiff.
    destruct (decide (resolver = r)) as [-> | Hne].
    + rewrite list_lookup_insert_eq by by eapply lookup_lt_Some.
      split; [intros [_ ?]; done | done].
    + rewrite list_lookup_insert_ne by done.
      split; [by intros [? _] | intros ?; split; [done | congruence]].
  - destruct Hcase as (Hsubs & c & Hc & Hsame & Hsusp).
    split; [by rewrite Hsubs |].
    exists c. split; [done |]. split; [done |].
    intros r. destruct (decide (resolver = r)) as [-> | Hne].
    + by rewrite list_lookup_insert_eq by by eapply lookup_lt_Some.
    + rewrite list_lookup_insert_ne by done. apply Hsusp.
Qed.

Lemma inv_call_settle c result st st' :
  settled_with result c →
  inv st → call_settle result st = Normal st' → inv st'.
Proof.
  intros Hc Hinv Hcall. pose proof Hinv as (Hnd & Hbound & Hcase).
  unfold call_settle in Hcall. destruct (settle st) eqn:Hsettle.
  - destruct Hcase as (Hs & Hcalls & Hsubs & Hiff).
    rewrite (settle_first_unsettled c) in Hcall by done.
    injection Hcall as <-. unfold inv; simpl. rewrite Hcalls. simpl.
    rewrite <- list_fmap_compose.
    assert (Hfst : (fst ∘ (λ r : Resolver, (r, c))) <$> subscribers st
                   = subscribers st).
    { rewrite <- (list_fmap_id (subscribers st)) at 2.
      by apply list_fmap_ext. }
    rewrite Hfst. split; [done |]. split.
    { intros r Hr. apply Hiff in Hr. by eapply lookup_lt_Some. }
    split; [done |]. exists c. split; [done |]. split.
    + intros rc (r & -> & _)%list_elem_of_fmap. done.
    + intros r Hr. by apply Hiff.
  - by injection Hcall as <-.
Qed.

Lemma inv_step e st st' : inv st → step e st = Normal st' → inv st'.
Proof.
  destruct e as [| resolver | value | error]; simpl; intros Hinv Hstep.
  - by eapply inv_operation.
  - injection Hstep as <-. by apply inv_operation_finally.
  - eapply (inv_call_settle (CallResolve value)); [| done | done].
    left. eauto.
  - eapply (inv_call_settle (CallReject error)); [| done | done].
    right. eauto.
Qed.

Lemma inv_run events st st' : inv st → run events st = Normal st' → inv st'.
Proof.
  revert st. induction events as [| e events IH]; simpl; intros st Hinv Hrun.
  - by injection Hrun as <-.
  - destruct (step e st) as [st1 |] eqn:Hstep; [| done].
    eapply IH; [| done]. by eapply inv_step.
Qed.

Lemma reachable_inv st : reachable st → inv st.
Proof. intros [events Hrun]. eapply inv_run; [apply inv_withResolvers | done]. Qed.

(** The two phases of a broadcaster. *)
Lemma inv_unsettled st :
  inv st → settlement st = VUndefined → settle st = SettleFirst.
Proof.
  intros (_ & _ & Hcase) Hs. destruct (settle st); [done |].
  destruct Hcase as (_ & c & [(? & Hc & _) | (? & Hc & _)] & _);
    rewrite Hs in Hc; discriminate.
Qed.

Lemma inv_settled st :
  inv st → settlement st ≠ VUndefined → settle st = SettleNoop.
Proof.
  intros (_ & _ & Hcase) Hs. destruct (settle st); [| done].
  by destruct Hcase as (? & _).
Qed.

Lemma step_settling_first e st :
  inv st → settle st = SettleFirst → is_settling e = true →
  step e st
  = Normal (mkState [] (result_of e) SettleNoop (frames st)
              ((λ r, (r, call_of e)) <$> subscribers st)).
Proof.
  intros (_ & _ & Hcase) Hsettle He. rewrite Hsettle in Hcase.
  destruct Hcase as (Hs & Hcalls & Hsubs & _).
  pose proof (settled_with_result_of e He) as Hc.
  assert (Hstep : step e st = settle_first (result_of e) st).
  { destruct e; try discriminate; simpl;
      unfold resolve, reject, call_settle; by rewrite Hsettle. }
  rewrite Hstep, (settle_first_unsettled (call_of e)) by done.
  by rewrite Hcalls.
Qed.

Lemma step_settling_later e st :
  settle st = SettleNoop → is_settling e = true → step e st = Normal st.
Proof.
  intros Hsettle He.
  destruct e; try discriminate; simpl;
    unfold resolve, reject, call_settle; by rewrite Hsettle.
Qed.

(** No step of a reachable broadcaster throws. *)
Lemma step_total e st : inv st → ∃ st', step e st = Normal st'.
Proof.
  intros Hinv. pose proof Hinv as (_ & _ & Hcase).
  destruct (is_settling e) eqn:He.
  - destruct (settle st) eqn:Hsettle.
    + rewrite step_settling_first by done. eauto.
    + rewrite step_settling_later by done. eauto.
  - destruct e as [| resolver | |]; try discriminate; simpl; [| eauto].
    destruct (settle st).
    + destruct Hcase as (Hs & _). rewrite operation_unsettled by done. eauto.
    + destruct Hcase as (_ & c & Hc & _).
      rewrite (operation_settled c) by done. eauto.
Qed.

Lemma run_total events st : inv st → ∃ st', run events st = Normal st'.
Proof.
  revert st. induction events as [| e events IH]; simpl; intros st Hinv.
  - eauto.
  - destruct (step_total e st Hinv) as [st1 Hstep]. rewrite Hstep. simpl.
    apply IH. by eapply inv_step.
Qed.

Lemma run_app events1 events2 st :
  run (events1 ++ events2) st = run events1 st ≫= run events2.
Proof.
  revert st. induction events1 as [| e events1 IH]; simpl; intros st; [done |].
  destruct (step e st) as [st1 |]; simpl; [apply IH | done].
Qed.

Lemma reachable_run events st st' :
  reachable st → run events st = Normal st' → reachable st'.
Proof.
  intros [events0 Hrun0] Hrun. exists (events0 ++ events).
  rewrite run_app, Hrun0. exact Hrun.
Qed.

(** An invariant of the steps is an invariant of the runs. *)
Lemma run_preserves (P : State → Prop) :
  (∀ e st st', inv st → P st → step e st = Normal st' → P st') →
  ∀ events st st', inv st → P st → run events st = Normal st' → P st'.
Proof.
  intros Hstep events. induction events as [| e events IH]; simpl;
    intros st st' Hinv HP Hrun.
  - by injection Hrun as <-.
  - destruct (step e st) as [st1 |] eqn:He; [| done].
    eapply (IH st1); [by eapply inv_step | by eapply Hstep | done].
Qed.

Lemma cancelled_step r e st st' :
  inv st → cancelled r st → step e st = Normal st' → cancelled r st'.
Proof.
  intros Hinv [Hframe Hcall] Hstep. pose proof Hinv as (_ & _ & Hcase).
  destruct (is_settling e) eqn:He.
  - destruct (settle st) eqn:Hsettle.
    + rewrite step_settling_first in Hstep by done. injection Hstep as <-.
      split; [done |]. simpl.
      destruct Hcase as (_ & _ & _ & Hiff).
      intros (rc & -> & (r' & -> & Hr')%list_elem_of_fmap)%list_elem_of_fmap.
      simpl in Hframe. apply Hiff in Hr'. congruence.
    + rewrite step_settling_later in Hstep by done. by injection Hstep as <-.
  - destruct e as [| resolver | |]; try discriminate; simpl in Hstep.
    + destruct (settle st).
      * destruct Hcase as (Hs & _).
        rewrite operation_unsettled in Hstep by done. injection Hstep as <-.
        split; [| done]. simpl. by apply lookup_app_l_Some.
      * destruct Hcase as (_ & c & Hc & _).
        rewrite (operation_settled c) in Hstep by done.
        injection Hstep as <-. split; simpl.
        -- by apply lookup_app_l_Some.
        -- rewrite fmap_app, not_elem_of_app. split; [done |].
           intros ->%list_elem_of_singleton. simpl in Hframe.
           apply lookup_lt_Some in Hframe. lia.
    + injection Hstep as <-. unfold operation_finally.
      destruct (frames st !! resolver) as [[|] |] eqn:Hres;
        [| done | done].
      split; [| done]. simpl.
      rewrite list_lookup_insert_ne; [done | congruence].
Qed.

Lemma deregistered_step r e st st' :
  inv st → deregistered r st → step e st = Normal st' → deregistered r st'.
Proof.
  intros Hinv [Hlt Hout] Hstep. pose proof Hinv as (_ & _ & Hcase).
  destruct (is_settling e) eqn:He.
  - destruct (settle st) eqn:Hsettle.
    + rewrite step_settling_first in Hstep by done. injection Hstep as <-.
      split; [done | apply not_elem_of_nil].
    + rewrite step_settling_later in Hstep by done. by injection Hstep as <-.
  - destruct e as [| resolver | |]; try discriminate; simpl in Hstep.
    + destruct (settle st).
      * destruct Hcase as (Hs & _).
        rewrite operation_unsettled in Hstep by done. injection Hstep as <-.
        split; simpl; [rewrite length_app; lia |].
        unfold set_add. case_decide; [done |].
        rewrite not_elem_of_app. split; [done |].
        intros ->%list_elem_of_singleton. lia.
      * destruct Hcase as (_ & c & Hc & _).
        rewrite (operation_settled c) in Hstep by done.
        injection Hstep as <-. split; simpl; [rewrite length_app; lia | done].
    + injection Hstep as <-. unfold operation_finally.
      destruct (frames st !! resolver) as [[|] |]; [| done | done].
      split; simpl; [by rewrite length_insert |].
      rewrite elem_of_set_delete. tauto.
Qed.

Lemma resumed_step r e st st' :
  inv st → resumed r st → step e st = Normal st' → resumed r st'.
Proof.
  intros Hinv Hr Hstep. pose proof Hinv as (_ & _ & Hcase).
  unfold resumed in *.
  destruct (is_settling e) eqn:He.
  - destruct (settle st) eqn:Hsettle.
    + destruct Hcase as (_ & Hcalls & _). rewrite Hcalls in Hr.
      by apply elem_of_nil in Hr.
    + rewrite step_settling_later in Hstep by done. by injection Hstep as <-.
  - destruct e as [| resolver | |]; try discriminate; simpl in Hstep.
    + destruct (settle st).
      * destruct Hcase as (Hs & _).
        rewrite operation_unsettled in Hstep by done. by injection Hstep as <-.
      * destruct Hcase as (_ & c & Hc & _).
        rewrite (operation_settled c) in Hstep by done.
        injection Hstep as <-. simpl. rewrite fmap_app, elem_of_app. by left.
    + injection Hstep as <-. unfold operation_finally.
      by destruct (frames st !! resolver) as [[|] |].
Qed.








(** ** The scenarios of the specification *)

(** Three waiters, then [resolve(42)], then a fourth waiter, then
    [reject(new Error("x"))]: each waiter is resolved with 42, the fourth
    without parking, and the rejection changes nothing. *)
Example scenario_three_waiters :
  run [Invoke; Invoke; Invoke; Resolve (VNum 42 0); Invoke;
       Reject (new_Error (VStr "x"))] withResolvers
  = Normal (mkState [] (Ok (VNum 42 0)) SettleNoop
              [Suspended; Suspended; Suspended; Returned]
              [(0, CallResolve (VNum 42 0)); (1, CallResolve (VNum 42 0));
               (2, CallResolve (VNum 42 0)); (3, CallResolve (VNum 42 0))]).
Proof. reflexivity. Qed.

(** A waiter cancelled before [reject(err)]: the call completes and calls
    nobody; a waiter that comes later is rejected with [err]. *)
Example scenario_cancelled_waiter :
  run [Invoke; Unwind 0; Reject (new_Error (VStr "x")); Invoke] withResolvers
  = Normal (mkState [] (Err (new_Error (VStr "x"))) SettleNoop
              [Returned; Returned]
              [(1, CallReject (new_Error (VStr "x")))]).
Proof. reflexivity. Qed.

(** [resolve] after [reject], and [reject] after [resolve]. *)
Example scenario_resolve_after_reject :
  (run [Reject (VStr "e"); Resolve (VNum 1 0)] withResolvers
     ≫= λ st, mret (settlement st)) = Normal (Err (VStr "e")) ∧
  (run [Resolve (VNum 1 0); Reject (VStr "e")] withResolvers
     ≫= λ st, mret (settlement st)) = Normal (Ok (VNum 1 0)).
Proof. split; reflexivity. Qed.

(** ** The broadcaster: the claims *)





(** C3 — Late subscriber equivalence.  On a settled broadcaster an
    invocation of the operation completes at once: within the invocation
    the continuation matching the settlement is called with its payload,
    the body returns instead of parking, and the registry is not touched.
    The call is the same call (same continuation, same payload) that every
    earlier waiter received. *)
Theorem late_subscriber (st : State) :
  reachable st → settlement st ≠ VUndefined →
  ∃ c st', settled_with (settlement st) c ∧
           operation st = Normal st' ∧
           calls st' = calls st ++ [(length (frames st), c)] ∧
           frames st' = frames st ++ [Returned] ∧
           subscribers st' = subscribers st ∧
           (length (frames st) ∉ subscribers st') ∧
           settlement st' = settlement st ∧
           (∀ r c', (r, c') ∈ calls st → c' = c).
Proof.
  intros Hreach%reachable_inv Hs.
  pose proof (inv_settled st Hreach Hs) as Hsettle.
  destruct Hreach as (_ & _ & Hcase). rewrite Hsettle in Hcase.
  destruct Hcase as (Hsubs & c & Hc & Hsame & _).
  exists c. eexists. split; [done |].
  split; [by apply operation_settled |]. simpl.
  repeat split; try done.
  - rewrite Hsubs. apply not_elem_of_nil.
  - intros r c' Hin. exact (Hsame _ Hin).
Qed.

Lemma late_subscriber_witness :
  ∃ st0, run [Invoke; Reject (VStr "x")] withResolvers = Normal st0 ∧
  ∃ c st', settled_with (settlement st0) c ∧
           operation st0 = Normal st' ∧
           calls st' = calls st0 ++ [(length (frames st0), c)] ∧
           frames st' = frames st0 ++ [Returned] ∧
           subscribers st' = subscribers st0 ∧
           (length (frames st0) ∉ subscribers st') ∧
           settlement st' = settlement st0 ∧
           (∀ r c', (r, c') ∈ calls st0 → c' = c).
Proof.
  eexists. split; [reflexivity |].
  apply late_subscriber.
  - exists [Invoke; Reject (VStr "x")]. reflexivity.
  - discriminate.
Defined.

Lemma cancelled_run r events st st' :
  inv st → cancelled r st → run events st = Normal st' → cancelled r st'.
Proof.
  apply (run_preserves (cancelled r)). intros e s s'. apply cancelled_step.
Qed.

Lemma deregistered_run r events st st' :
  inv st → deregistered r st → run events st = Normal st' → deregistered r st'.
Proof.
  apply (run_preserves (deregistered r)). intros e s s'.
  apply deregistered_step.
Qed.

Lemma resumed_run r events st st' :
  inv st → resumed r st → run events st = Normal st' → resumed r st'.
Proof.
  apply (run_preserves (resumed r)). intros e s s'. apply resumed_step.
Qed.



Lemma reachable_settlement_typed st : reachable st → settlement_typed st.
Proof.
  intros (_ & _ & Hcase)%reachable_inv. destruct (settle st).
  - left. apply Hcase.
  - right. destruct Hcase as (_ & c & Hc & _). eauto.
Qed.

Lemma settle_loop_total c pending st :
  settled_with (settlement st) c →
  ∃ st', settle_loop pending st = Normal st' ∧ frames st' = frames st.
Proof.
  revert st. induction pending as [| r rest IH]; simpl; intros st Hc.
  - eauto.
  - case_decide; [| by apply IH].
    rewrite (notify_settled _ c) by done. simpl.
    destruct (IH (call_resolver r c
                    (with_subscribers (set_delete r (subscribers st)) st)))
      as (st' & -> & Hframes); [done |].
    eauto.
Qed.

Lemma call_settle_total c result st :
  settled_with result c → settlement_typed st →
  ∃ st', call_settle result st = Normal st' ∧ frames st' = frames st.
Proof.
  intros Hc Htyped. unfold call_settle. destruct (settle st); [| eauto].
  unfold settle_first. destruct Htyped as [Hs | [c0 Hc0]].
  - rewrite Hs. simpl.
    destruct (settle_loop_total c (subscribers st)
                (with_settlement result SettleNoop st)) as (st' & -> & Hf);
      [done |].
    eauto.
  - rewrite (settled_with_truthy _ c0) by done.
    by apply (settle_loop_total c0).
Qed.

(** C5 — resolve and reject never raise.  In every state of the broadcaster,
    not settled with any registry or settled, and for every argument, a call
    of resolve or of reject completes normally, and it parks nothing: the
    generator frames are as before. *)
Theorem resolve_reject_total (st : State) (arg : Value) :
  settlement_typed st →
  (∃ st', resolve arg st = Normal st' ∧ frames st' = frames st) ∧
  (∃ st', reject arg st = Normal st' ∧ frames st' = frames st).
Proof.
  intros Htyped. split.
  - apply (call_settle_total (CallResolve arg)); [left; eauto | done].
  - apply (call_settle_total (CallReject arg)); [right; eauto | done].
Qed.

Lemma resolve_reject_total_witness :
  (∃ st', resolve VNull (mkState [3; 1; 3] VUndefined SettleFirst [] [])
          = Normal st' ∧ frames st' = []) ∧
  (∃ st', reject VUndefined (mkState [3; 1; 3] VUndefined SettleFirst [] [])
          = Normal st' ∧ frames st' = []).
Proof.
  split.
  - apply (resolve_reject_total
             (mkState [3; 1; 3] VUndefined SettleFirst [] []) VNull).
    by left.
  - apply (resolve_reject_total
             (mkState [3; 1; 3] VUndefined SettleFirst [] []) VUndefined).
    by left.
Defined.

(** C7 — Exactly-once observation, exclusive terminal states.  Along any run
    of a broadcaster: no invocation has its continuations called more than
    once; a cancelled invocation stays cancelled, so it is never resumed; a
    resumed invocation stays resumed and is not cancelled, and its cleanup
    finds nothing to remove; an invocation that is out of the registry never
    comes back into it; and an invocation in the registry is neither resumed
    nor cancelled. *)
Theorem waiter_terminal_states (st : State) (events : list Event) :
  reachable st →
  ∃ st', run events st = Normal st' ∧
         NoDup (calls st').*1 ∧
         (∀ r, cancelled r st → cancelled r st' ∧ ¬ resumed r st') ∧
         (∀ r, resumed r st →
               resumed r st' ∧ ¬ cancelled r st' ∧
               subscribers (operation_finally r st') = subscribers st' ∧
               calls (operation_finally r st') = calls st') ∧
         (∀ r, deregistered r st → deregistered r st') ∧
         (∀ r, r ∈ subscribers st' → ¬ resumed r st' ∧ ¬ cancelled r st').
Proof.
  intros Hinv%reachable_inv.
  destruct (run_total events st Hinv) as [st' Hrun].
  pose proof (inv_run events st st' Hinv Hrun) as Hinv'.
  exists st'. split; [done |]. split; [apply Hinv' |].
  split; [| split; [| split]].
  - intros r Hr. pose proof (cancelled_run r events st st' Hinv Hr Hrun) as Hc.
    split; [done | apply Hc].
  - intros r Hr. pose proof (resumed_run r events st st' Hinv Hr Hrun) as Hr'.
    split; [done |]. split; [by intros [_ ?] |].
    unfold operation_finally.
    destruct (frames st' !! r) as [[|] |] eqn:Hframe; [| done | done].
    simpl. split; [| done]. apply set_delete_fresh.
    destruct Hinv' as (_ & _ & Hcase). destruct (settle st').
    + destruct Hcase as (_ & Hcalls & _). unfold resumed in Hr'.
      rewrite Hcalls in Hr'. by apply elem_of_nil in Hr'.
    + destruct Hcase as (-> & _). apply not_elem_of_nil.
  - intros r Hr. exact (deregistered_run r events st st' Hinv Hr Hrun).
  - intros r Hr. destruct Hinv' as (_ & _ & Hcase). destruct (settle st').
    + destruct Hcase as (_ & Hcalls & _ & Hiff). unfold resumed, cancelled.
      rewrite Hcalls. split; [apply not_elem_of_nil |].
      apply Hiff in Hr. intros [? _]. congruence.
    + destruct Hcase as (Hsubs & _). rewrite Hsubs in Hr.
      by apply elem_of_nil in Hr.
Qed.

Lemma waiter_terminal_states_witness :
  ∃ st, run [Invoke; Invoke; Unwind 0; Resolve VNull] withResolvers
        = Normal st ∧
        cancelled 0 st ∧ resumed 1 st ∧
  ∃ st', run [Unwind 1; Invoke; Reject VNull; Unwind 0] st = Normal st' ∧
         NoDup (calls st').*1 ∧
         (∀ r, cancelled r st → cancelled r st' ∧ ¬ resumed r st') ∧
         (∀ r, resumed r st →
               resumed r st' ∧ ¬ cancelled r st' ∧
               subscribers (operation_finally r st') = subscribers st' ∧
               calls (operation_finally r st') = calls st') ∧
         (∀ r, deregistered r st → deregistered r st') ∧
         (∀ r, r ∈ subscribers st' → ¬ resumed r st' ∧ ¬ cancelled r st').
Proof.
  eexists. split; [reflexivity |].
  split; [split; [reflexivity | by intros ?%list_elem_of_singleton] |].
  split; [by apply list_elem_of_singleton |].
  apply (waiter_terminal_states _ [Unwind 1; Invoke; Reject VNull; Unwind 0]).
  exists [Invoke; Invoke; Unwind 0; Resolve VNull]. reflexivity.
Defined.

(** ** The Result helpers *)

(** C6 — Unknown-error normalization.  For a failure result that has no
    [error] field, [notify] calls the reject continuation with an [Error]
    whose message is "unknown error", not with a missing payload, and
    [ResultLikeToResult] returns [Err] of such an [Error]. *)
Theorem unknown_error_normalization (props : gmap string Value)
    (resolver : Resolver) (st : State) :
  truthy (default VUndefined (props !! "ok")) = false →
  props !! "error" = None →
  notify (VObj props) resolver st
  = Normal (call_resolver resolver
              (CallReject (new_Error (VStr "unknown error"))) st) ∧
  ResultLikeToResult (VObj props)
  = Normal (Err (new_Error (VStr "unknown error"))) ∧
  error_message (new_Error (VStr "unknown error")) = Some "unknown error".
Proof.
  intros Hok Herror. unfold notify, ResultLikeToResult, has_property. simpl.
  rewrite Hok, Herror. simpl. done.
Qed.

Lemma unknown_error_normalization_witness :
  notify (VObj {["ok" := VBool false]}) 0 withResolvers
  = Normal (call_resolver 0
              (CallReject (new_Error (VStr "unknown error"))) withResolvers) ∧
  ResultLikeToResult (VObj {["ok" := VBool false]})
  = Normal (Err (new_Error (VStr "unknown error"))) ∧
  error_message (new_Error (VStr "unknown error")) = Some "unknown error".
Proof.
  apply (unknown_error_normalization {["ok" := VBool false]} 0 withResolvers);
    reflexivity.
Defined.

Lemma toResult_toFxResult_object (props : gmap string Value) :
  props !! "cata" = None →
  toResult (toFxResult (VObj props)) = Normal (VObj props).
Proof.
  intros Hcata. unfold toResult, toFxResult. simpl.
  by rewrite delete_insert_eq, delete_id.
Qed.

Lemma toFxResult_get_other (props : gmap string Value) (k : string) :
  k ≠ "cata" → get (toFxResult (VObj props)) k = get (VObj props) k.
Proof.
  intros Hk. unfold toFxResult, get. simpl. by rewrite lookup_insert_ne.
Qed.

(** C8 — Round trip of the Result enhancement.  For every [Result<T>] value
    [r], [toResult(toFxResult(r))] completes with an object equal to [r];
    [toFxResult(r)] has the fields of [r] unchanged and a [cata] field that
    [r] does not have. *)
Theorem toResult_toFxResult (r : Value) :
  is_Result r →
  toResult (toFxResult r) = Normal r ∧
  (∀ k, k ≠ "cata" → get (toFxResult r) k = get r k) ∧
  get (toFxResult r) "cata" = Normal (VCata r) ∧
  has_property "cata" r = Normal false.
Proof.
  intros [[value ->] | [error ->]].
  - split; [by apply toResult_toFxResult_object |].
    split; [intros k; apply toFxResult_get_other | done].
  - split; [by apply toResult_toFxResult_object |].
    split; [intros k; apply toFxResult_get_other | done].
Qed.

Lemma toResult_toFxResult_witness :
  toResult (toFxResult (Ok (VStr "Hello"))) = Normal (Ok (VStr "Hello")) ∧
  (∀ k, k ≠ "cata" →
        get (toFxResult (Ok (VStr "Hello"))) k = get (Ok (VStr "Hello")) k) ∧
  get (toFxResult (Ok (VStr "Hello"))) "cata"
  = Normal (VCata (Ok (VStr "Hello"))) ∧
  has_property "cata" (Ok (VStr "Hello")) = Normal false.
Proof.
  apply (toResult_toFxResult (Ok (VStr "Hello"))). left. by eexists.
Defined.

(** C9 — isJSONString accepts only JSON objects.  Whatever [JSON.parse]
    does on [s], [isJSONString(s)] completes, never throws; it is true
    exactly when [JSON.parse(s)] returns a value of type "object" that is
    not null, and false when [JSON.parse(s)] throws.  On the texts 42, true,
    "hi" and null, and on a text that is not JSON, it is false. *)
Theorem isJSONString_spec (JSON_parse : string → Completion Value) (s : string) :
  (isJSONString JSON_parse s = Normal true ↔
   ∃ v, JSON_parse s = Normal v ∧ typeof v = "object" ∧ v ≠ VNull) ∧
  (isJSONString JSON_parse s = Normal true ∨
   isJSONString JSON_parse s = Normal false) ∧
  (∀ e, JSON_parse s = Throw e → isJSONString JSON_parse s = Normal false) ∧
  isJSONString JSON.parse "42" = Normal false ∧
  isJSONString JSON.parse "true" = Normal false ∧
  isJSONString JSON.parse (quoted "hi") = Normal false ∧
  isJSONString JSON.parse "null" = Normal false ∧
  isJSONString JSON.parse "{" = Normal false.
Proof.
  unfold isJSONString.
  split; [| split; [| split; [| by vm_compute]]].
  - destruct (JSON_parse s) as [v | e]; simpl.
    + split.
      * intros Hv. exists v. split; [done |].
        destruct v; try discriminate; done.
      * intros (v' & [= <-] & Htype & Hnull).
        destruct v; try discriminate; done.
    + split; [discriminate |]. by intros (v & ? & _).
  - destruct (JSON_parse s) as [v | e]; simpl; [| by right].
    destruct (_ && _); [by left | by right].
  - intros e ->. done.
Qed.

Example isJSONString_accepts :
  isJSONString JSON.parse "{}" = Normal true ∧
  isJSONString JSON.parse " [1, 2.5e3, null] " = Normal true ∧
  isJSONString JSON.parse ("{" +:+ quoted "ok" +:+ ": true}") = Normal true.
Proof. by vm_compute. Qed.

Example isResultDelphi_accepts :
  isResultDelphi (Ok (VNum 42 0)) = Normal true ∧
  isResultDelphi (Err (VStr "Something went wrong")) = Normal true ∧
  isResultDelphi (VObj {["ok" := VBool false]}) = Normal false ∧
  isResultDelphi (VObj {["ok" := VBool true]}) = Normal false ∧
  isResultDelphi (VArr []) = Normal false ∧
  isResultLikeOk (Ok (VNum 42 0)) = Normal true ∧
  isResultLikeErr (Ok (VNum 42 0)) = Normal false ∧
  isResultLikeErr (Err (VStr "Something went wrong")) = Normal true.
Proof. by vm_compute. Qed.

Lemma indexed_lookup (vs : list Value) (k : string) (v : Value) :
  indexed vs !! k = Some v → v ∈ vs.
Proof.
  unfold indexed. intros Hin%elem_of_list_to_map_2.
  apply elem_of_lookup_imap_1 in Hin as (i & y & [= _ ->] & Hy).
  by eapply list_elem_of_lookup_2.
Qed.

(** No character of a string is a boolean. *)
Lemma field_is_string (s k : string) (b : bool) :
  field_is (VStr s) k b = Normal false.
Proof.
  unfold field_is, get. simpl.
  destruct (indexed _ !! k) as [v |] eqn:Hv; [| done].
  apply indexed_lookup, list_elem_of_fmap in Hv as (c & -> & _). done.
Qed.

(** C10 — isResultDelphi is partial.  On [null] and on [undefined],
    [isResultDelphi], [isResultLikeOk] and [isResultLikeErr] throw a
    TypeError; on a number, a string or a boolean, [isResultDelphi]
    completes with false. *)
Theorem isResultDelphi_partial :
  isResultDelphi VNull = Throw TypeError ∧
  isResultDelphi VUndefined = Throw TypeError ∧
  isResultLikeOk VNull = Throw TypeError ∧
  isResultLikeOk VUndefined = Throw TypeError ∧
  isResultLikeErr VNull = Throw TypeError ∧
  isResultLikeErr VUndefined = Throw TypeError ∧
  (∀ mantissa exponent, isResultDelphi (VNum mantissa exponent) = Normal false) ∧
  (∀ s, isResultDelphi (VStr s) = Normal false) ∧
  (∀ b, isResultDelphi (VBool b) = Normal false).
Proof.
  repeat split.
  intros s. unfold isResultDelphi. by rewrite !field_is_string.
Qed.

(** * Further properties *)

(** ** The Result predicates *)

Lemma get_defined (v : Value) (k : string) :
  v ≠ VNull → v ≠ VUndefined →
  get v k = Normal (default VUndefined (own_props v !! k)).
Proof. by destruct v. Qed.

Lemma has_property_object (k : string) (v : Value) :
  is_object v = true →
  has_property k v = Normal (bool_decide (is_Some (own_props v !! k))).
Proof. intros Hv. unfold has_property. by rewrite Hv. Qed.

Lemma is_object_defined (v : Value) :
  is_object v = true → v ≠ VNull ∧ v ≠ VUndefined.
Proof. by destruct v. Qed.

Lemma typeof_object (v : Value) :
  typeof v = "object" → v ≠ VNull → is_object v = true.
Proof. by destruct v. Qed.

Lemma field_is_defined (v : Value) (k : string) (b : bool) :
  v ≠ VNull → v ≠ VUndefined →
  field_is v k b
  = Normal (strict_eq_bool (default VUndefined (own_props v !! k)) b).
Proof. intros ? ?. unfold field_is. by rewrite get_defined. Qed.

Lemma strict_eq_bool_spec (x : option Value) (b : bool) :
  strict_eq_bool (default VUndefined x) b = true ↔ x = Some (VBool b).
Proof.
  destruct x as [[]|]; simpl; try (split; [discriminate | by intros [=]]).
  - destruct b, b0; simpl; split; try done; by intros [=].
Qed.

Lemma js_and_Normal (a b : bool) : (Normal a && Normal b)%js = Normal (a && b).
Proof. by destruct a. Qed.

Lemma js_or_Normal (a b : bool) : (Normal a || Normal b)%js = Normal (a || b).
Proof. by destruct a. Qed.

(** On an object every test of [isResultDelphi] completes, and the result
    is their boolean combination. *)
Lemma isResultDelphi_object (arg : Value) :
  is_object arg = true →
  isResultDelphi arg
  = Normal (String.eqb (typeof arg) "object"
            && bool_decide (is_Some (own_props arg !! "ok"))
            && strict_eq_bool (default VUndefined (own_props arg !! "ok")) true
            && bool_decide (is_Some (own_props arg !! "value"))
            || strict_eq_bool (default VUndefined (own_props arg !! "ok")) false
               && bool_decide (is_Some (own_props arg !! "error"))).
Proof.
  intros Hobj. destruct (is_object_defined arg Hobj) as [Hnull Hundef].
  unfold isResultDelphi.
  rewrite !field_is_defined, !has_property_object by done.
  assert (negb (is_null arg) = true) as -> by by destruct arg.
  unfold mret, Completion_ret.
  rewrite !js_and_Normal, js_or_Normal. by rewrite andb_true_r.
Qed.

(** On a value that is not an object (and not [null] or [undefined]) the
    first disjunct stops at [typeof] and the second at [arg.ok === false]. *)
Lemma isResultDelphi_primitive (arg : Value) :
  is_object arg = false → arg ≠ VNull → arg ≠ VUndefined →
  isResultDelphi arg = Normal false ∧
  field_is arg "ok" true = Normal false ∧
  field_is arg "ok" false = Normal false.
Proof.
  intros Hobj Hnull Hundef. unfold isResultDelphi.
  destruct arg; try done; rewrite ?field_is_string; done.
Qed.

Lemma delphi_ok_bool (arg : Value) :
  String.eqb (typeof arg) "object"
  && bool_decide (is_Some (own_props arg !! "ok"))
  && strict_eq_bool (default VUndefined (own_props arg !! "ok")) true
  && bool_decide (is_Some (own_props arg !! "value")) = true
  ↔ delphi_ok arg.
Proof.
  unfold delphi_ok.
  rewrite !andb_true_iff, !bool_decide_eq_true, String.eqb_eq,
    strict_eq_bool_spec.
  split; [tauto |]. intros (? & Hok & ?). rewrite Hok. eauto.
Qed.

Lemma delphi_err_bool (arg : Value) :
  is_object arg = true →
  strict_eq_bool (default VUndefined (own_props arg !! "ok")) false
  && bool_decide (is_Some (own_props arg !! "error")) = true
  ↔ delphi_err arg.
Proof.
  intros Hobj. unfold delphi_err.
  rewrite andb_true_iff, bool_decide_eq_true, strict_eq_bool_spec. tauto.
Qed.

Lemma delphi_ok_err_exclusive (arg : Value) : ¬ (delphi_ok arg ∧ delphi_err arg).
Proof. intros [(_ & Hok & _) (_ & Herr & _)]. congruence. Qed.

(** X1 — The three ResultLike predicates off [null] and [undefined]:
    each completes; [isResultLikeOk] holds exactly of the first accepted
    shape and [isResultLikeErr] exactly of the second; [isResultDelphi] is
    their disjunction, and the two are never both true. *)
Theorem isResultLike_partition (arg : Value) :
  arg ≠ VNull → arg ≠ VUndefined →
  ∃ o e, isResultLikeOk arg = Normal o ∧
         isResultLikeErr arg = Normal e ∧
         isResultDelphi arg = Normal (o || e) ∧
         o && e = false ∧
         (o = true ↔ delphi_ok arg) ∧
         (e = true ↔ delphi_err arg).
Proof.
  intros Hnull Hundef. destruct (is_object arg) eqn:Hobj.
  - unfold isResultLikeOk, isResultLikeErr.
    rewrite isResultDelphi_object, !field_is_defined,
      !has_property_object by done.
    rewrite !js_and_Normal.
    pose proof (delphi_ok_bool arg) as Hok.
    pose proof (delphi_err_bool arg Hobj) as Herr.
    pose proof (strict_eq_bool_spec (own_props arg !! "ok") true) as Ht.
    pose proof (strict_eq_bool_spec (own_props arg !! "ok") false) as Hf.
    pose proof (delphi_ok_err_exclusive arg) as Hex.
    set (A := (_ && _ && _ && _)%bool) in *.
    set (B := (strict_eq_bool _ false && _)%bool) in *.
    set (bt := strict_eq_bool _ true) in *.
    set (bf := strict_eq_bool _ false) in *.
    set (he := bool_decide (is_Some (own_props arg !! "error"))) in *.
    assert (Ho : (A || B) && bt = true ↔ delphi_ok arg).
    { rewrite andb_true_iff, orb_true_iff, Hok, Herr, Ht.
      unfold delphi_ok, delphi_err. split; [| tauto].
      intros [[? | (_ & Hfalse & _)] Htrue]; [done | congruence]. }
    assert (He : (A || B) && bf && he = true ↔ delphi_err arg).
    { rewrite !andb_true_iff, orb_true_iff, Hok, Hf.
      fold B. rewrite Herr.
      unfold delphi_ok, delphi_err. split; [| fold B in Herr].
      - intros [[[(_ & Htrue & _) | ?] Hfalse] _]; [congruence | done].
      - intros Hd. split; [split; [by right | apply Hd] |].
        apply Herr in Hd. unfold B in Hd.
        by apply andb_true_iff in Hd as [_ ?]. }
    eexists _, _. split; [reflexivity |]. split; [reflexivity |].
    split; [| split; [| by split]].
    + f_equal. apply Bool.eq_iff_eq_true.
      rewrite !orb_true_iff, Ho, He, Hok, Herr. done.
    + destruct ((A || B) && bt) eqn:E1; [| done].
      destruct ((A || B) && bf && he) eqn:E2; [| done].
      exfalso. apply Hex. split; [by apply Ho | by apply He].
  - destruct (isResultDelphi_primitive arg Hobj Hnull Hundef)
      as (Hd & Htrue & Hfalse).
    unfold isResultLikeOk, isResultLikeErr. rewrite Hd.
    exists false, false. repeat split; try done.
    + intros (Hty & _). by rewrite typeof_object in Hobj.
    + intros (? & _). congruence.
Qed.

Lemma isResultLike_partition_witness :
  ∃ o e, isResultLikeOk (VObj {["ok" := VBool false]}) = Normal o ∧
         isResultLikeErr (VObj {["ok" := VBool false]}) = Normal e ∧
         isResultDelphi (VObj {["ok" := VBool false]}) = Normal (o || e) ∧
         o && e = false ∧
         (o = true ↔ delphi_ok (VObj {["ok" := VBool false]})) ∧
         (e = true ↔ delphi_err (VObj {["ok" := VBool false]})).
Proof. by apply (isResultLike_partition (VObj {["ok" := VBool false]})). Defined.

(** X2 — [isOk] and [isErr] off [null] and [undefined]: both complete, they
    are never both true, [isOk] holds exactly when [ok] is the boolean true
    and [isErr] exactly when it is the boolean false; so both are false of
    a value whose [ok] is missing or not a boolean. *)
Theorem isOk_isErr_exclusive (v : Value) :
  v ≠ VNull → v ≠ VUndefined →
  ∃ o e, isOk v = Normal o ∧ isErr v = Normal e ∧
         o && e = false ∧
         (o = true ↔ own_props v !! "ok" = Some (VBool true)) ∧
         (e = true ↔ own_props v !! "ok" = Some (VBool false)).
Proof.
  intros Hnull Hundef. unfold isOk, isErr. rewrite !field_is_defined by done.
  pose proof (strict_eq_bool_spec (own_props v !! "ok") true) as Ht.
  pose proof (strict_eq_bool_spec (own_props v !! "ok") false) as Hf.
  eexists _, _. split; [reflexivity |]. split; [reflexivity |].
  split; [| by split].
  destruct (strict_eq_bool _ true); [| done].
  destruct (strict_eq_bool _ false); [| done].
  destruct Ht as [Ht _], Hf as [Hf _]. specialize (Ht eq_refl).
  rewrite Hf in Ht by done. discriminate.
Qed.

Lemma isOk_isErr_exclusive_witness :
  ∃ o e, isOk (VObj {["ok" := VNum 1 0]}) = Normal o ∧
         isErr (VObj {["ok" := VNum 1 0]}) = Normal e ∧
         o && e = false ∧
         (o = true ↔
          own_props (VObj {["ok" := VNum 1 0]}) !! "ok" = Some (VBool true)) ∧
         (e = true ↔
          own_props (VObj {["ok" := VNum 1 0]}) !! "ok" = Some (VBool false)).
Proof. by apply (isOk_isErr_exclusive (VObj {["ok" := VNum 1 0]})). Defined.

(** X3 — [isResult] is the weakest of the predicates: whatever [isOk],
    [isErr] or [isResultDelphi] accepts, [isResult] accepts. *)
Theorem isResult_weakest (v : Value) :
  isOk v = Normal true ∨ isErr v = Normal true ∨
  isResultDelphi v = Normal true →
  isResult v = Normal true.
Proof.
  intros H.
  assert (Hdef : v ≠ VNull ∧ v ≠ VUndefined).
  { split; intros ->; by destruct H as [? | [? | ?]]. }
  destruct Hdef as [Hnull Hundef].
  assert (Hok : ∃ b, own_props v !! "ok" = Some (VBool b)).
  { destruct H as [H | [H | H]].
    - destruct (isOk_isErr_exclusive v Hnull Hundef)
        as (o & e & Ho & _ & _ & Hiff & _).
      rewrite Ho in H. injection H as ->. exists true. by apply Hiff.
    - destruct (isOk_isErr_exclusive v Hnull Hundef)
        as (o & e & _ & He & _ & _ & Hiff).
      rewrite He in H. injection H as ->. exists false. by apply Hiff.
    - destruct (isResultLike_partition v Hnull Hundef)
        as (o & e & _ & _ & Hd & _ & Ho & He).
      rewrite Hd in H. injection H as H. apply orb_true_iff in H as [-> | ->].
      + exists true. by apply Ho.
      + exists false. by apply He. }
  destruct Hok as [b Hok]. unfold isResult.
  rewrite get_defined, Hok by done. done.
Qed.

Lemma isResult_weakest_witness :
  isResult (Err (VStr "Something went wrong")) = Normal true.
Proof.
  apply (isResult_weakest (Err (VStr "Something went wrong"))).
  right. right. reflexivity.
Defined.



Lemma pretty_N_go_head (x : N) (s : string) :
  head_is_digit s → head_is_digit (pretty_N_go x s).
Proof.
  revert s. induction (N.lt_wf_0 x) as [x _ IH]; intros s Hs.
  assert (x = 0 ∨ 0 < x)%N as [-> | Hx] by lia.
  - by rewrite pretty_N_go_0.
  - rewrite pretty_N_go_step by done. apply IH.
    { by apply N.div_lt. }
    exists (x `mod` 10)%N. split; [| done].
    by apply N.mod_upper_bound.
Qed.

Lemma pretty_nat_head (i : nat) : head_is_digit (pretty i).
Proof.
  unfold pretty, pretty_nat, pretty, pretty_N. case_decide.
  - exists 0%N. by split.
  - by apply pretty_N_go_head.
Qed.

(** A name that does not start with a digit is not an index. *)
Lemma indexed_lookup_name (vs : list Value) (k : string) :
  ¬ head_is_digit k → indexed vs !! k = None.
Proof.
  intros Hk. unfold indexed. apply not_elem_of_list_to_map_1.
  intros ((k' & v) & -> & Hin)%list_elem_of_fmap.
  apply elem_of_lookup_imap_1 in Hin as (i & y & [= -> _] & _).
  apply Hk, pretty_nat_head.
Qed.

Lemma ok_not_index : ¬ head_is_digit "ok".
Proof.
  intros (d & Hd & Hc).
  assert (d = 0 ∨ d = 1 ∨ d = 2 ∨ d = 3 ∨ d = 4 ∨ d = 5 ∨ d = 6 ∨ d = 7
          ∨ d = 8 ∨ d = 9)%N as Hcases by lia.
  repeat (destruct Hcases as [-> | Hcases]; [discriminate |]).
  subst. discriminate.
Qed.

(** X5 — [ResultLikeToResult] on what is not an object: [null] and
    [undefined] fail at [result.ok]; a number, a boolean or a string has no
    [ok], so the failure arm is taken and ["error" in result] throws. *)
Theorem ResultLikeToResult_primitive (v : Value) :
  is_object v = false → ResultLikeToResult v = Throw TypeError.
Proof.
  intros Hobj. unfold ResultLikeToResult.
  destruct v; try done. simpl.
  by rewrite indexed_lookup_name by apply ok_not_index.
Qed.

Lemma ResultLikeToResult_primitive_witness :
  ResultLikeToResult (VStr "Something went wrong") = Throw TypeError.
Proof. by apply (ResultLikeToResult_primitive (VStr "Something went wrong")). Defined.

(** X6 — [toFxResult(r).cata(patterns)] for an object [r]: the call
    completes with the operation of one pattern, applied to [r] itself (the
    result as it was before the enhancement); it is [patterns.Ok] exactly
    when [r.ok] is the boolean true, and [patterns.Err] for every other
    [ok], truthy or not. *)
Theorem cata_dispatch {U : Type} (props : gmap string Value)
    (patterns_Ok patterns_Err : Value → U) :
  (props !! "ok" = Some (VBool true) →
   call_cata (toFxResult (VObj props)) patterns_Ok patterns_Err
   = Normal (patterns_Ok (VObj props))) ∧
  (props !! "ok" ≠ Some (VBool true) →
   call_cata (toFxResult (VObj props)) patterns_Ok patterns_Err
   = Normal (patterns_Err (VObj props))).
Proof.
  unfold call_cata, toFxResult, get. simpl. rewrite lookup_insert_eq. simpl.
  unfold cataFunction, isOk. rewrite field_is_defined by done. simpl.
  pose proof (strict_eq_bool_spec (props !! "ok") true) as Ht.
  destruct (strict_eq_bool _ true); simpl.
  - split; [done |]. intros Hne. destruct Hne. by apply Ht.
  - split; [| done]. intros H%Ht. discriminate.
Qed.

Lemma cata_dispatch_witness :
  call_cata (toFxResult (Ok (VStr "Hello"))) (λ r, (true, r)) (λ r, (false, r))
  = Normal (true, Ok (VStr "Hello")) ∧
  call_cata (toFxResult (VObj {["ok" := VNum 1 0]}))
    (λ r, (true, r)) (λ r, (false, r))
  = Normal (false, VObj {["ok" := VNum 1 0]}).
Proof.
  split.
  - by apply (cata_dispatch (<["value" := VStr "Hello"]> {["ok" := VBool true]})
                (λ r, (true, r)) (λ r, (false, r))).
  - by apply (cata_dispatch {["ok" := VNum 1 0]}
                (λ r, (true, r)) (λ r, (false, r))).
Defined.

(** X7 — [toResult] on any value it accepts: the object it returns has
    no [cata] field, stripping it again changes nothing, and enhancing the
    value with [toFxResult] before stripping gives the same object. *)
Theorem toResult_strip (v r : Value) :
  toResult v = Normal r →
  has_property "cata" r = Normal false ∧
  toResult r = Normal r ∧
  toResult (toFxResult v) = Normal r ∧
  toResult (toFxResult r) = Normal r.
Proof.
  intros Hv.
  assert (Hr : r = VObj (delete "cata" (own_props v))).
  { destruct v; try discriminate; by injection Hv as <-. }
  subst r. unfold toResult, toFxResult, has_property. simpl.
  rewrite lookup_delete_eq, !delete_insert_eq.
  rewrite (delete_id (delete _ _)) by apply lookup_delete_eq.
  repeat split; done.
Qed.

Lemma toResult_strip_witness :
  has_property "cata" (Err (VStr "x")) = Normal false ∧
  toResult (Err (VStr "x")) = Normal (Err (VStr "x")) ∧
  toResult (toFxResult (toFxResult (Err (VStr "x")))) = Normal (Err (VStr "x")) ∧
  toResult (toFxResult (Err (VStr "x"))) = Normal (Err (VStr "x")).
Proof.
  apply (toResult_strip (toFxResult (Err (VStr "x"))) (Err (VStr "x"))).
  reflexivity.
Defined.

Lemma isJSONString_of_total (JSON_parse : string → Completion Value)
    (ToString : Value → Completion string) (v : Value) :
  ∃ b, isJSONString_of JSON_parse ToString v = Normal b.
Proof.
  unfold isJSONString_of.
  destruct (to_text ToString v) as [str |]; simpl; [| eauto].
  destruct (JSON_parse str); simpl; eauto.
Qed.

Lemma isJSONString_of_string (JSON_parse : string → Completion Value)
    (ToString : Value → Completion string) (s : string) :
  isJSONString_of JSON_parse ToString (VStr s) = isJSONString JSON_parse s.
Proof. reflexivity. Qed.

(** X8 — The two predicates with a JSON payload, off [null] and
    [undefined], whatever [JSON.parse] and the string conversion do: both
    complete; each implies its base predicate, so they are never both true;
    and when the payload field holds a string, each is true exactly when the
    base shape is there and [isJSONString] accepts that string. *)
Theorem WithJsonValue_spec (JSON_parse : string → Completion Value)
    (ToString : Value → Completion string) (arg : Value) :
  arg ≠ VNull → arg ≠ VUndefined →
  ∃ o e,
    isResultLikeOkWithJsonValue JSON_parse ToString arg = Normal o ∧
    isResultLikeErrWithJsonValue JSON_parse ToString arg = Normal e ∧
    o && e = false ∧
    (o = true → isResultLikeOk arg = Normal true) ∧
    (e = true → isResultLikeErr arg = Normal true) ∧
    (∀ s, own_props arg !! "value" = Some (VStr s) →
          o = true ↔
          delphi_ok arg ∧ isJSONString JSON_parse s = Normal true) ∧
    (∀ s, own_props arg !! "error" = Some (VStr s) →
          e = true ↔
          delphi_err arg ∧ isJSONString JSON_parse s = Normal true).
Proof.
  intros Hnull Hundef.
  destruct (isResultLike_partition arg Hnull Hundef)
    as (o & e & Ho & He & _ & Hex & Hok & Herr).
  unfold isResultLikeOkWithJsonValue, isResultLikeErrWithJsonValue.
  rewrite Ho, He, !get_defined by done. simpl.
  destruct (isJSONString_of_total JSON_parse ToString
              (default VUndefined (own_props arg !! "value"))) as [jv Hjv].
  destruct (isJSONString_of_total JSON_parse ToString
              (default VUndefined (own_props arg !! "error"))) as [je Hje].
  exists (o && jv), (e && je).
  split; [destruct o; [done | done] |].
  split; [destruct e; [done | done] |].
  split; [destruct o, e, jv, je; done |].
  split; [by intros [-> _]%andb_true_iff |].
  split; [by intros [-> _]%andb_true_iff |].
  split.
  - intros s Hs. rewrite Hs in Hjv. simpl in Hjv.
    rewrite isJSONString_of_string in Hjv. rewrite Hjv, andb_true_iff, Hok.
    split; [by intros [? ->] | intros [? [= ->]]; done].
  - intros s Hs. rewrite Hs in Hje. simpl in Hje.
    rewrite isJSONString_of_string in Hje. rewrite Hje, andb_true_iff, Herr.
    split; [by intros [? ->] | intros [? [= ->]]; done].
Qed.

Lemma WithJsonValue_spec_witness :
  ∃ o e,
    isResultLikeOkWithJsonValue JSON.parse (λ _, Throw TypeError)
      (Ok (VStr "[1, 2]")) = Normal o ∧
    isResultLikeErrWithJsonValue JSON.parse (λ _, Throw TypeError)
      (Ok (VStr "[1, 2]")) = Normal e ∧
    o && e = false ∧
    (o = true → isResultLikeOk (Ok (VStr "[1, 2]")) = Normal true) ∧
    (e = true → isResultLikeErr (Ok (VStr "[1, 2]")) = Normal true) ∧
    (∀ s, own_props (Ok (VStr "[1, 2]")) !! "value" = Some (VStr s) →
          o = true ↔
          delphi_ok (Ok (VStr "[1, 2]")) ∧
          isJSONString JSON.parse s = Normal true) ∧
    (∀ s, own_props (Ok (VStr "[1, 2]")) !! "error" = Some (VStr s) →
          e = true ↔
          delphi_err (Ok (VStr "[1, 2]")) ∧
          isJSONString JSON.parse s = Normal true).
Proof.
  by apply (WithJsonValue_spec JSON.parse (λ _, Throw TypeError)
              (Ok (VStr "[1, 2]"))).
Defined.

Example isResultLikeOkWithJsonValue_accepts :
  isResultLikeOkWithJsonValue JSON.parse (λ _, Throw TypeError)
    (Ok (VStr "[1, 2]")) = Normal true ∧
  isResultLikeOkWithJsonValue JSON.parse (λ _, Throw TypeError)
    (Ok (VStr "42")) = Normal false ∧
  isResultLikeErrWithJsonValue JSON.parse (λ _, Throw TypeError)
    (Err (VStr "{}")) = Normal true ∧
  isResultLikeErrWithJsonValue JSON.parse (λ _, Throw TypeError)
    (Err (VStr "Something went wrong")) = Normal false.
Proof. by vm_compute. Qed.

(** ** The broadcaster *)











Lemma set_delete_comm x y s :
  set_delete x (set_delete y s) = set_delete y (set_delete x s).
Proof.
  unfold set_delete. rewrite !list_filter_filter.
  apply list_filter_iff. tauto.
Qed.

Lemma operation_finally_parked r st :
  frames st !! r = Some Suspended →
  operation_finally r st
  = with_frames (<[r := Returned]> (frames st))
      (with_subscribers (set_delete r (subscribers st)) st).
Proof. intros H. unfold operation_finally. by rewrite H. Qed.

Lemma operation_finally_idle r st :
  frames st !! r ≠ Some Suspended → operation_finally r st = st.
Proof.
  intros H. unfold operation_finally.
  by destruct (frames st !! r) as [[|] |].
Qed.

Lemma parked_or_not r st :
  frames st !! r = Some Suspended ∨ frames st !! r ≠ Some Suspended.
Proof. destruct (frames st !! r) as [[|] |]; [by left | by right | by right]. Qed.

(** X12 — Unwinding composes.  In any state, unwinding the same invocation
    twice is unwinding it once, and unwinding two invocations gives the same
    state in either order. *)
Theorem operation_finally_comm (r1 r2 : Resolver) (st : State) :
  operation_finally r1 (operation_finally r1 st) = operation_finally r1 st ∧
  operation_finally r1 (operation_finally r2 st)
  = operation_finally r2 (operation_finally r1 st).
Proof.
  assert (Hidem : ∀ r, operation_finally r (operation_finally r st)
                       = operation_finally r st).
  { intros r. destruct (parked_or_not r st) as [H | H].
    - rewrite (operation_finally_parked r st H).
      apply operation_finally_idle. simpl.
      rewrite list_lookup_insert_eq by by eapply lookup_lt_Some. done.
    - by rewrite !(operation_finally_idle r st H). }
  split; [apply Hidem |].
  destruct (decide (r1 = r2)) as [-> | Hne]; [done |].
  destruct (parked_or_not r1 st) as [H1 | H1];
    destruct (parked_or_not r2 st) as [H2 | H2].
  - rewrite (operation_finally_parked r1 st H1),
      (operation_finally_parked r2 st H2).
    rewrite !operation_finally_parked
      by (simpl; by rewrite list_lookup_insert_ne by congruence).
    unfold with_frames, with_subscribers. simpl.
    rewrite set_delete_comm. f_equal. by apply list_insert_insert_ne.
  - rewrite (operation_finally_idle r2 st H2).
    rewrite (operation_finally_parked r1 st H1).
    symmetry. apply operation_finally_idle. simpl.
    by rewrite list_lookup_insert_ne by congruence.
  - rewrite (operation_finally_idle r1 st H1).
    rewrite (operation_finally_parked r2 st H2).
    apply operation_finally_idle. simpl.
    by rewrite list_lookup_insert_ne by congruence.
  - rewrite (operation_finally_idle r2 st H2).
    rewrite (operation_finally_idle r1 st H1).
    by rewrite (operation_finally_idle r2 st H2).
Qed.



(** X14 — No trace of a cancelled waiter.  On a broadcaster that is not
    settled, an invocation registers its resolver, and unwinding it puts
    registry, settlement and log back exactly as they were: what remains is
    the finished frame. *)
Theorem invoke_then_cancel (st : State) :
  reachable st → settlement st = VUndefined →
  ∃ st1, operation st = Normal st1 ∧
         length (frames st) ∈ subscribers st1 ∧
         frames st1 !! length (frames st) = Some Suspended ∧
         operation_finally (length (frames st)) st1
         = with_frames (frames st ++ [Returned]) st.
Proof.
  intros Hinv%reachable_inv Hs.
  pose proof (inv_unsettled st Hinv Hs) as Hsettle.
  assert (Hfresh : length (frames st) ∉ subscribers st).
  { destruct Hinv as (_ & _ & Hcase). rewrite Hsettle in Hcase.
    destruct Hcase as (_ & _ & _ & Hiff).
    intros Hin%Hiff%lookup_lt_Some. lia. }
  eexists. split; [by apply operation_unsettled |]. simpl.
  unfold set_add. rewrite decide_False by done.
  assert (Hlook : (frames st ++ [Suspended]) !! length (frames st)
                  = Some Suspended).
  { by rewrite lookup_app_r, Nat.sub_diag by lia. }
  split; [apply elem_of_app; right; by apply list_elem_of_singleton |].
  split; [done |].
  rewrite operation_finally_parked by done.
  unfold with_frames, with_subscribers. simpl. f_equal.
  - unfold set_delete. rewrite filter_app.
    fold (set_delete (length (frames st)) (subscribers st)).
    rewrite set_delete_fresh by done.
    rewrite filter_cons_False by (intros H; by apply H).
    by rewrite app_nil_r.
  - by rewrite insert_app_r_alt, Nat.sub_diag by lia.
Qed.

Lemma invoke_then_cancel_witness :
  ∃ st, run [Invoke; Invoke; Unwind 0] withResolvers = Normal st ∧
  ∃ st1, operation st = Normal st1 ∧
         length (frames st) ∈ subscribers st1 ∧
         frames st1 !! length (frames st) = Some Suspended ∧
         operation_finally (length (frames st)) st1
         = with_frames (frames st ++ [Returned]) st.
Proof.
  eexists. split; [reflexivity |].
  apply invoke_then_cancel.
  - exists [Invoke; Invoke; Unwind 0]. reflexivity.
  - reflexivity.
Defined.

(** X15 — [notify] on any result.  For an object, whatever its fields,
    [notify] completes after exactly one continuation call and touches
    nothing else: the call is [resolve] with the [value] field when [ok] is
    truthy, otherwise [reject] with the [error] field, or with the unknown
    error when there is no such field.  For anything that is not an object
    it throws a TypeError and no continuation is called. *)
Theorem notify_one_call (result : Value) (resolver : Resolver) (st : State) :
  (is_object result = true →
   ∃ c, notify result resolver st = Normal (call_resolver resolver c st) ∧
        (truthy (default VUndefined (own_props result !! "ok")) = true →
         c = CallResolve (default VUndefined (own_props result !! "value"))) ∧
        (truthy (default VUndefined (own_props result !! "ok")) = false →
         c = CallReject (default (new_Error (VStr "unknown error"))
                           (own_props result !! "error")))) ∧
  (is_object result = false →
   notify result resolver st = Throw TypeError).
Proof.
  split; intros Hobj.
  - destruct (is_object_defined result Hobj) as [Hnull Hundef].
    unfold notify. rewrite !get_defined, has_property_object by done. simpl.
    destruct (truthy _); simpl.
    + eexists. split; [reflexivity |]. by split.
    + destruct (own_props result !! "error"); simpl;
        (eexists; split; [reflexivity |]; by split).
  - unfold notify. destruct result; try done. simpl.
    by rewrite indexed_lookup_name by apply ok_not_index.
Qed.
